(** * The clang-format playground samples: sample.cpp and sample.h

    A shallow embedding of the functions of
    [crates/check/submodules/biome/playground/sample.cpp] and of the
    declarations of [sample.h], with the properties of the sort-and-deduplicate
    pipeline, the generic maximum, the power loop and the statistics and
    geometry helpers.

    Conventions.
    - A C++ [int] is modelled as a [Z].  [process_vector] and [max] only compare
      and move ints, so nothing can wrap around there; the one int that is
      incremented, the loop counter of [power], is discussed with it.
    - A [double] is a primitive binary64 [float] with the kernel's IEEE 754
      operations.
    - A [std::vector<int>] is a [list Z]; reading and writing through an
      iterator are stdpp's list lookup and insert. *)

From Stdlib Require Import ZArith Floats.
From stdpp Require Import base option list sorting numbers strings.
From Equations Require Import Equations.

Open Scope Z_scope.

(** ** The 32-bit [int] *)

Module CInt.

Definition INT_MIN : Z := - 2 ^ 31.
Definition INT_MAX : Z := 2 ^ 31 - 1.

Definition in_range (z : Z) : Prop := INT_MIN ≤ z ≤ INT_MAX.

(** The value an int holds after an arithmetic result [z] is stored into it
    on a two's complement machine. *)
Definition wrap (z : Z) : Z := (z + 2 ^ 31) mod 2 ^ 32 - 2 ^ 31.

End CInt.

(** ** The parts of the C++ standard library that sample.cpp calls *)

Module Std.

(** [std::sort(first, last)] on a [vector<int>] orders the range by
    [operator<].  The algorithm is the library's business; for ints every
    algorithm yields the same vector ([sort_canonical]), so a merge sort
    stands for it. *)
Definition sort (vec : list Z) : list Z := merge_sort Z.le vec.

(** One iteration of the loop of [std::unique], for the position [first]:
<<
    if (!( *result == *first ) && ++result != first)
      *result = std::move( *first );
>>
    The state is the buffer together with the index [result].  Both reads are
    in range whenever the loop runs ([unique_reads_in_range]); the last
    branch is there only to make the function total. *)
Definition unique_step (st : list Z * nat) (first : nat) : list Z * nat :=
  let '(buf, result) := st in
  match buf !! result, buf !! first with
  | Some r, Some f =>
      if bool_decide (r = f) then (buf, result)
      else if bool_decide (S result = first) then (buf, S result)
      else (<[S result := f]> buf, S result)
  | _, _ => (buf, result)
  end.

(** [std::unique(vec.begin(), vec.end())]: works in place and returns the
    buffer and the position of the new logical end.
<<
    if (first == last) return last;
    ForwardIt result = first;
    while (++first != last) ...
    return ++result;
>> *)
Definition unique (buf : list Z) : list Z * nat :=
  match buf with
  | [] => (buf, 0%nat)
  | _ :: _ =>
      let '(buf', result) :=
        foldl unique_step (buf, 0%nat) (seq 1 (length buf - 1)) in
      (buf', S result)
  end.

(** [vec.erase(pos, vec.end())]: drops everything from [pos] on. *)
Definition erase_to_end (vec : list Z) (pos : nat) : list Z := take pos vec.

End Std.

(** ** sample.cpp *)

Module SampleCpp.

(** What [template <typename T> T max(T a, T b)] can ask of [T]: its
    comparison operators.  [max] itself calls [operator>] only;
    [operator>=] is there to state what happens on ties. *)
Class Comparable (T : Type) : Type := {
  op_gt : T → T → bool;
  op_ge : T → T → bool
}.

#[export] Instance int_comparable : Comparable Z :=
  {| op_gt := Z.gtb; op_ge := Z.geb |}.

(** [a > b] and [a >= b] on doubles: both false as soon as one side is a
    NaN, and [+0.0] and [-0.0] compare equal. *)
#[export] Instance double_comparable : Comparable float :=
  {| op_gt a b := PrimFloat.ltb b a; op_ge a b := PrimFloat.leb b a |}.

(** [return (a > b) ? a : b;] *)
Definition max {T : Type} `{Comparable T} (a b : T) : T :=
  if op_gt a b then a else b.

(** What is written to [std::cout]. *)
Inductive token : Type :=
| Int (n : Z)
| Str (s : string)
| Endl.

(** [for (auto it = vec.begin(); it != vec.end(); ++it) std::cout << *it << " ";] *)
Fixpoint print_elements (vec : list Z) : list token :=
  match vec with
  | [] => []
  | n :: rest => Int n :: Str " " :: print_elements rest
  end.

(** [void process_vector(std::vector<int>& vec)]: the vector after the call
    and the text written to [std::cout]. *)
Definition process_vector (vec : list Z) : list Z * list token :=
  let sorted := Std.sort vec in
  let '(buf, new_end) := Std.unique sorted in
  let vec' := Std.erase_to_end buf new_end in
  (vec', print_elements vec' ++ [Endl]).

(** The vector that [process_vector] leaves behind; the specification calls
    this operation [compact]. *)
Definition compact (vec : list Z) : list Z := (process_vector vec).1.

(** The loop of [math::advanced::power], entered with the current [result]
    and counter [i]:
<<
    for (int i = 0; i < exp; i++) { result *= base; }
>>
    The counter is incremented only while [i < exp], so [i + 1] is at most
    [exp] and needs no wrap-around ([power_counter_in_range]). *)
Equations? power_loop (base : float) (exp : Z) (result : float) (i : Z) : float
  by wf (Z.to_nat (exp - i)) lt :=
  power_loop base exp result i with decide (i < exp) => {
    | left _ => power_loop base exp (result * base)%float (i + 1);
    | right _ => result }.
Proof. lia. Qed.

(** [double power(double base, int exp)] *)
Definition power (base : float) (exp : Z) : float :=
  power_loop base exp 1%float 0.

End SampleCpp.

(** ** sample.h *)

Module SampleH.

(** [struct Point { int x; int y; };] *)
Record Point : Type := { x : Z; y : Z }.

(** [struct Rectangle { struct Point top_left; struct Point bottom_right; };] *)
Record Rectangle : Type := { top_left : Point; bottom_right : Point }.

(** Modelled from the spec: the errors an operation can signal (section 7);
    the C header declares none. *)
Inductive error : Type :=
| AllocationFailure
| EmptyInputError
| OwnershipViolation.

(** Modelled from the spec: the linear scan of section 4.2, shared by
    [find_max] and [find_min], which sample.h only declares.  It keeps the best
    element seen so far and replaces it by an element that is strictly
    [better]. *)
Definition scan (better : Z → Z → bool) (first : Z) (rest : list Z) : Z :=
  foldl (λ best e, if better e best then e else best) first rest.

(** Modelled from the spec: the body of [int find_max(int* arr, int size)],
    which sample.h only declares.  Section 4.2: a linear scan over all
    elements that returns the maximum; on an empty buffer it signals an
    EmptyInputError instead of returning a sentinel.  The buffer with its
    length is a list. *)
Definition find_max (buffer : list Z) : error + Z :=
  match buffer with
  | [] => inl EmptyInputError
  | first :: rest => inr (scan Z.gtb first rest)
  end.

(** Modelled from the spec: the body of [int find_min(int* arr, int size)],
    which sample.h only declares.  Section 4.2, as for [find_max], with the
    minimum. *)
Definition find_min (buffer : list Z) : error + Z :=
  match buffer with
  | [] => inl EmptyInputError
  | first :: rest => inr (scan Z.ltb first rest)
  end.

(** Modelled from the spec: the body of
    [double calculate_area(struct Rectangle rect)], which sample.h only
    declares.  Section 4.7: the product of the absolute values of the two
    axis spans, here in exact integer arithmetic. *)
Definition calculate_area (rect : Rectangle) : Z :=
  Z.abs (x (bottom_right rect) - x (top_left rect)) *
  Z.abs (y (bottom_right rect) - y (top_left rect)).

End SampleH.

(** ** sample.cpp: the class [Person] and the lambda of [main] *)

Module PersonClass.
Import SampleCpp.

(** [class Person { private: std::string name; int age; ... };] *)
Record Person : Type := { name : string; age : Z }.

(** [Person(std::string n, int a) : name(n), age(a) {}] *)
Definition new (n : string) (a : Z) : Person := {| name := n; age := a |}.

(** [void print() const]: what the call writes to [std::cout],
<<
    std::cout << "Name: " << name << ", Age: " << age << std::endl;
>> *)
Definition print (p : Person) : list token :=
  [Str "Name: "; Str (name p); Str ", Age: "; Int (age p); Endl].

(** [std::string getName() const { return name; }] *)
Definition getName (p : Person) : string := name p.

(** [int getAge() const { return age; }] *)
Definition getAge (p : Person) : Z := age p.

(** [void setAge(int a) { age = a; }]: the object after the call. *)
Definition setAge (p : Person) (a : Z) : Person :=
  {| name := name p; age := a |}.

End PersonClass.

Module MainCpp.

(** [auto add = [](int a, int b) -> int { return a + b; };] *)
Definition add (a b : Z) : Z := CInt.wrap (a + b).

End MainCpp.

(** ** sample.c *)

Module SampleC.

(** What [printf] and [fprintf] write: an int in decimal ([%d]), literal text
    of the format string, and the newline character. *)
Inductive chunk : Type :=
| Dec (n : Z)
| Text (s : string)
| Newline.

(** [int add(int a, int b) { return a + b; }] *)
Definition add (a b : Z) : Z := CInt.wrap (a + b).

(** The loop of [print_array], entered with the text written so far and the
    counter [i]:
<<
    for (int i = 0; i < size; i++) { printf("%d ", arr[i]); }
>>
    [arr] holds the ints that the pointer may be read at; a read at any other
    index is outside the array and yields [None]. *)
Equations? print_array_loop (arr : list Z) (size : Z) (out : list chunk) (i : Z)
  : option (list chunk) by wf (Z.to_nat (size - i)) lt :=
  print_array_loop arr size out i with decide (i < size) => {
    | left _ with arr !! Z.to_nat i => {
        | Some n =>
            print_array_loop arr size (out ++ [Dec n; Text " "]) (i + 1);
        | None => None };
    | right _ => Some out }.
Proof. lia. Qed.

(** [void print_array(int* arr, int size)]: the text written to the standard
    output, or [None] when the loop reads outside [arr]. *)
Definition print_array (arr : list Z) (size : Z) : option (list chunk) :=
  out ← print_array_loop arr size [] 0;
  Some (out ++ [Newline]).

(** The loop of [main] that fills the allocated block:
<<
    for (int i = 0; i < 5; i++) { dynamic_array[i] = i * 2; }
>>
    A write outside the block yields [None]. *)
Equations? fill_loop (dynamic_array : list Z) (i : Z) : option (list Z)
  by wf (Z.to_nat (5 - i)) lt :=
  fill_loop dynamic_array i with decide (i < 5) => {
    | left _ with decide (Z.to_nat i < length dynamic_array)%nat => {
        | left _ =>
            fill_loop (<[Z.to_nat i := CInt.wrap (i * 2)]> dynamic_array)
              (i + 1);
        | right _ => None };
    | right _ => Some dynamic_array }.
Proof. lia. Qed.

(** How a run of [main] ends: the value returned and what was written to the
    standard output and to the standard error. *)
Record outcome : Type := {
  exit_code : Z;
  stdout : list chunk;
  stderr : list chunk
}.

(** [int main(void)].  The argument is what [malloc(5 * sizeof(int))]
    returns: [None] for [NULL], otherwise the block with the arbitrary ints it
    holds at first.  The result is [None] when an access falls outside an
    array. *)
Definition main (allocated : option (list Z)) : option outcome :=
  let x := 10 in
  let y := 20 in
  let result := add x y in
  let sum_line := [Text "Sum: "; Dec result; Newline] in
  let numbers := [1; 2; 3; 4; 5] in
  let size := Z.of_nat (length numbers) in
  numbers_line ← print_array numbers size;
  match allocated with
  | None =>
      Some {| exit_code := 1;
              stdout := sum_line ++ numbers_line;
              stderr := [Text "Memory allocation failed"; Newline] |}
  | Some dynamic_array =>
      filled ← fill_loop dynamic_array 0;
      dynamic_line ← print_array filled 5;
      Some {| exit_code := 0;
              stdout := sum_line ++ numbers_line ++ dynamic_line;
              stderr := [] |}
  end.

End SampleC.

(** Equality of the IEEE 754 values that [Prim2SF] returns is decidable. *)
#[local] Instance spec_float_eq_dec : EqDecision spec_float.
Proof. solve_decision. Defined.

(** ** Definitions used to state the properties *)

Module Spec.

(** Appends [x] unless it repeats the last element kept so far. *)
Definition keep_new (acc : list Z) (x : Z) : list Z :=
  if bool_decide (last acc = Some x) then acc else acc ++ [x].

(** The first element of every run of equal neighbours, in order. *)
Definition dedup_adjacent (l : list Z) : list Z := foldl keep_new [] l.

(** What holds of the state of [std::unique] after its loop has visited the
    positions [1 .. k] of [buf]: the buffer keeps its length, the kept
    prefix [0 .. result] is the deduplication of the first [k + 1] elements,
    and nothing beyond position [k] has been written. *)
Definition unique_inv (buf : list Z) (k : nat) (st : list Z * nat) : Prop :=
  length st.1 = length buf ∧
  (st.2 ≤ k)%nat ∧
  take (S st.2) st.1 = dedup_adjacent (take (S k) buf) ∧
  drop (S k) st.1 = drop (S k) buf.

(** The same rectangle with its two corners exchanged. *)
Definition swap_corners (rect : SampleH.Rectangle) : SampleH.Rectangle :=
  {| SampleH.top_left := SampleH.bottom_right rect;
     SampleH.bottom_right := SampleH.top_left rect |}.

(** [base] multiplied into a running product [n] times, starting from 1:
    [((1 * base) * base) * ...], each product rounded as a double. *)
Definition repeated_product (base : float) (n : nat) : float :=
  fold_left PrimFloat.mul (repeat base n) 1%float.

End Spec.

Import SampleCpp Spec.

(** ** Values computed by [main] *)

Example main_max : max 10 20 = 20.
Proof. reflexivity. Qed.

Example main_processed :
  process_vector [5; 2; 8; 2; 9; 1; 5; 3] =
    ([1; 2; 3; 5; 8; 9],
     [Int 1; Str " "; Int 2; Str " "; Int 3; Str " ";
      Int 5; Str " "; Int 8; Str " "; Int 9; Str " "; Endl]).
Proof. vm_compute. reflexivity. Qed.

Example unique_leaves_tail :
  Std.unique [1; 1; 2; 2; 2; 3; 1; 1] = ([1; 2; 3; 1; 2; 3; 1; 1], 4%nat).
Proof. reflexivity. Qed.

(** ** Deduplication of neighbours *)

Section dedup_facts.
Implicit Types (l acc : list Z) (x y : Z).

Lemma dedup_adjacent_snoc l x :
  dedup_adjacent (l ++ [x]) = keep_new (dedup_adjacent l) x.
Proof. unfold dedup_adjacent. by rewrite foldl_app. Qed.

Lemma last_keep_new acc x : last (keep_new acc x) = Some x.
Proof.
  unfold keep_new. case_bool_decide; [done | apply last_snoc].
Qed.

Lemma last_dedup_adjacent l : last (dedup_adjacent l) = last l.
Proof.
  induction l as [| x l _] using rev_ind; [done |].
  by rewrite dedup_adjacent_snoc, last_keep_new, last_snoc.
Qed.

Lemma elem_of_keep_new acc x y : y ∈ keep_new acc x ↔ y ∈ acc ∨ y = x.
Proof.
  unfold keep_new. case_bool_decide as Hlast.
  - split; [by left |]. intros [? | ->]; [done |].
    by apply last_Some_elem_of.
  - rewrite elem_of_app, list_elem_of_singleton. done.
Qed.

Lemma elem_of_dedup_adjacent l y : y ∈ dedup_adjacent l ↔ y ∈ l.
Proof.
  induction l as [| x l IH] using rev_ind; [done |].
  rewrite dedup_adjacent_snoc, elem_of_keep_new, IH.
  rewrite elem_of_app, list_elem_of_singleton. done.
Qed.

End dedup_facts.

(** ** Ascending and strictly ascending lists *)

Section ascending.
Implicit Types (l acc : list Z) (x y z : Z).

Lemma ascending_last_max acc y z :
  StronglySorted Z.lt acc → last acc = Some z → y ∈ acc → y ≤ z.
Proof.
  intros Hs [acc' ->]%last_Some [Hy | ->%list_elem_of_singleton]%elem_of_app;
    [| lia].
  apply Z.lt_le_incl.
  eapply (StronglySorted_app_1_elem_of Z.lt); [done .. |].
  by apply list_elem_of_singleton.
Qed.

Lemma ascending_snoc_inv l x :
  StronglySorted Z.le (l ++ [x]) →
  StronglySorted Z.le l ∧ ∀ y, y ∈ l → y ≤ x.
Proof.
  rewrite StronglySorted_app. intros (Hle & Hl & _). split; [done |].
  intros y Hy. apply Hle; [done |]. by apply list_elem_of_singleton.
Qed.

Lemma strictly_ascending_snoc acc x :
  StronglySorted Z.lt acc → (∀ y, y ∈ acc → y < x) →
  StronglySorted Z.lt (acc ++ [x]).
Proof.
  intros Hs Hlt. apply StronglySorted_app_2; [| done | repeat constructor].
  intros y ? Hy ->%list_elem_of_singleton. by apply Hlt.
Qed.

(** On an ascending list, dropping repeated neighbours leaves a strictly
    ascending one. *)
Lemma dedup_adjacent_strictly_ascending l :
  StronglySorted Z.le l → StronglySorted Z.lt (dedup_adjacent l).
Proof.
  induction l as [| x l IH] using rev_ind; [constructor |].
  intros [Hl Hle]%ascending_snoc_inv.
  rewrite dedup_adjacent_snoc. unfold keep_new.
  case_bool_decide as Hlast; [by apply IH |].
  apply strictly_ascending_snoc; [by apply IH |].
  intros y Hy.
  destruct (last (dedup_adjacent l)) as [z |] eqn:Hz.
  - assert (y ≤ z) by (eapply ascending_last_max; eauto).
    assert (z ≤ x).
    { apply Hle, elem_of_dedup_adjacent. by apply last_Some_elem_of. }
    assert (z ≠ x) by congruence. lia.
  - apply last_None in Hz. rewrite Hz in Hy. by apply elem_of_nil in Hy.
Qed.

(** A strictly ascending list has no repeated neighbours to drop. *)
Lemma dedup_adjacent_fixed l :
  StronglySorted Z.lt l → dedup_adjacent l = l.
Proof.
  induction l as [| x l IH] using rev_ind; [done |].
  intros Hs. pose proof Hs as (Hlt & Hl & _)%StronglySorted_app.
  rewrite dedup_adjacent_snoc, IH by done. unfold keep_new.
  case_bool_decide as Hlast; [| done].
  apply last_Some_elem_of in Hlast.
  specialize (Hlt x x Hlast). rewrite list_elem_of_singleton in Hlt.
  specialize (Hlt eq_refl). lia.
Qed.

Lemma strictly_ascending_NoDup l : StronglySorted Z.lt l → NoDup l.
Proof.
  induction 1 as [| x l _ IH Hx]; constructor; [| done].
  intros Hin. rewrite Forall_forall in Hx. specialize (Hx x Hin). lia.
Qed.

Lemma strictly_ascending_adjacent l i x y :
  StronglySorted Z.lt l → l !! i = Some x → l !! S i = Some y → x < y.
Proof.
  intros Hs. revert i. induction Hs as [| z l _ IH Hz]; intros i; [done |].
  destruct i as [| i]; simpl.
  - intros [= ->] Hy. rewrite Forall_forall in Hz.
    apply Hz. by eapply list_elem_of_lookup_2.
  - apply IH.
Qed.

Lemma strictly_ascending_ascending l :
  StronglySorted Z.lt l → StronglySorted Z.le l.
Proof.
  induction 1 as [| x l _ IH Hx]; constructor; [done |].
  eapply Forall_impl; [done |]. intros; simpl in *; lia.
Qed.

End ascending.

(** ** The in-place loop of [std::unique] against [dedup_adjacent] *)

Section unique_in_place.
Implicit Types (buf : list Z) (k result first : nat).

Lemma unique_inv_init x buf : unique_inv (x :: buf) 0 (x :: buf, 0%nat).
Proof. unfold unique_inv; simpl. by rewrite take_0. Qed.

Lemma unique_inv_step buf k st :
  (S (S k) ≤ length buf)%nat →
  unique_inv buf k st → unique_inv buf (S k) (Std.unique_step st (S k)).
Proof.
  destruct st as [buf' result]. intros Hlen (Hlen' & Hres & Htake & Hdrop).
  simpl in *.
  destruct (lookup_lt_is_Some_2 buf (S k)) as [f Hf]; [lia |].
  assert (buf' !! S k = Some f) as Hf'.
  { pose proof (lookup_drop buf' (S k) 0) as Hb'.
    pose proof (lookup_drop buf (S k) 0) as Hb.
    rewrite Nat.add_0_r in Hb', Hb. by rewrite <-Hb', Hdrop, Hb. }
  destruct (lookup_lt_is_Some_2 buf' result) as [r Hr]; [lia |].
  assert (last (dedup_adjacent (take (S k) buf)) = Some r) as Hlast.
  { rewrite <-Htake, last_lookup, length_take, Nat.min_l by lia.
    by rewrite lookup_take_lt by lia. }
  assert (drop (S (S k)) buf' = drop (S (S k)) buf) as Hdrop'.
  { replace (S (S k)) with (S k + 1)%nat by lia.
    by rewrite <-!drop_drop, Hdrop. }
  unfold Std.unique_step, unique_inv. rewrite Hr, Hf'.
  rewrite (take_S_r buf (S k) f), dedup_adjacent_snoc by done.
  unfold keep_new. rewrite Hlast.
  repeat case_bool_decide; simplify_eq/=.
  - split_and!; [done | lia | done | done].
  - split_and!; [done | lia | | done].
    by rewrite (take_S_r buf' (S k) f), Htake.
  - split_and!; [by rewrite length_insert | lia | |].
    + rewrite (take_S_r _ (S result) f).
      * by rewrite take_insert_ge, Htake.
      * apply list_lookup_insert_eq. lia.
    + by rewrite drop_insert_lt; [| lia].
Qed.

Lemma unique_reads_in_range buf k st :
  (S (S k) ≤ length buf)%nat → unique_inv buf k st →
  is_Some (st.1 !! st.2) ∧ is_Some (st.1 !! S k).
Proof.
  intros Hlen (Hlen' & Hres & _). split; apply lookup_lt_is_Some_2; lia.
Qed.

Lemma unique_loop buf k :
  (S k ≤ length buf)%nat →
  unique_inv buf k (foldl Std.unique_step (buf, 0%nat) (seq 1 k)).
Proof.
  induction k as [| k IH]; intros Hlen.
  - destruct buf; [simpl in *; lia | apply unique_inv_init].
  - rewrite seq_S, foldl_app. simpl. apply unique_inv_step; [done |].
    apply IH. lia.
Qed.

(** [std::unique] followed by [erase] computes [dedup_adjacent]. *)
Lemma unique_erase buf :
  Std.erase_to_end (Std.unique buf).1 (Std.unique buf).2 = dedup_adjacent buf.
Proof.
  destruct buf as [| x buf]; [done |].
  pose proof (unique_loop (x :: buf) (length buf)) as Hinv.
  unfold Std.unique. simpl length. rewrite Nat.sub_succ, Nat.sub_0_r.
  destruct (foldl _ _ _) as [buf' result].
  destruct Hinv as (_ & _ & Htake & _); [simpl; lia |].
  cbn [fst snd] in *. unfold Std.erase_to_end.
  by rewrite Htake, take_ge.
Qed.

End unique_in_place.

(** ** process_vector *)

Section process_vector_facts.
Implicit Types (vec B : list Z) (x : Z).

Lemma sort_ascending vec : StronglySorted Z.le (Std.sort vec).
Proof. apply (StronglySorted_merge_sort Z.le). Qed.

Lemma sort_Permutation vec : Std.sort vec ≡ₚ vec.
Proof. apply (merge_sort_Permutation Z.le). Qed.

(** Whatever algorithm [std::sort] runs, an ascending rearrangement of a
    vector of ints is this one. *)
Lemma sort_canonical vec vec' :
  StronglySorted Z.le vec' → vec' ≡ₚ vec → vec' = Std.sort vec.
Proof.
  intros Hs Hp. apply (StronglySorted_unique Z.le); [done | |].
  - apply sort_ascending.
  - by rewrite sort_Permutation.
Qed.

Lemma compact_dedup_sort vec : compact vec = dedup_adjacent (Std.sort vec).
Proof.
  unfold compact, process_vector.
  rewrite <-unique_erase. by destruct (Std.unique _).
Qed.

Lemma process_vector_output vec :
  (process_vector vec).2 = print_elements (compact vec) ++ [Endl].
Proof.
  unfold compact, process_vector. by destruct (Std.unique _).
Qed.

Lemma compact_ascending vec : StronglySorted Z.lt (compact vec).
Proof.
  rewrite compact_dedup_sort.
  apply dedup_adjacent_strictly_ascending, sort_ascending.
Qed.

Lemma elem_of_compact vec x : x ∈ compact vec ↔ x ∈ vec.
Proof.
  by rewrite compact_dedup_sort, elem_of_dedup_adjacent, sort_Permutation.
Qed.

Lemma compact_NoDup vec : NoDup (compact vec).
Proof. apply strictly_ascending_NoDup, compact_ascending. Qed.

Lemma compact_fixed vec : StronglySorted Z.lt vec → compact vec = vec.
Proof.
  intros Hs. rewrite compact_dedup_sort.
  rewrite <-(sort_canonical vec vec);
    auto using dedup_adjacent_fixed, strictly_ascending_ascending.
Qed.

End process_vector_facts.

(** C1.  After [process_vector] the vector is strictly ascending: whenever
    positions [i] and [i + 1] both hold an element, the first is strictly less
    than the second, so no two neighbours are equal. *)
Theorem compact_strictly_ascending (vec : list Z) (i : nat) (a b : Z) :
  compact vec !! i = Some a → compact vec !! S i = Some b → a < b.
Proof. apply strictly_ascending_adjacent, compact_ascending. Qed.

Lemma compact_strictly_ascending_witness : 5 < 8.
Proof.
  apply (compact_strictly_ascending [5; 2; 8; 2; 9; 1; 5; 3] 3 5 8);
    vm_compute; reflexivity.
Defined.

(** C2.  The vector left by [process_vector] holds exactly the distinct values
    of the input [B]: a value of [B] occurs in it exactly once, and every value
    in it comes from [B]. *)
Theorem compact_distinct_values (B : list Z) (x : Z) :
  (x ∈ B → count_occ Z.eq_dec (compact B) x = 1%nat) ∧
  (x ∈ compact B → x ∈ B).
Proof.
  split; [| by rewrite elem_of_compact].
  intros Hx. apply NoDup_count_occ'.
  - apply NoDup_ListNoDup, compact_NoDup.
  - by apply list_elem_of_In, elem_of_compact.
Qed.

Lemma compact_distinct_values_witness :
  count_occ Z.eq_dec (compact [5; 2; 8; 2]) 2 = 1%nat.
Proof.
  apply (compact_distinct_values [5; 2; 8; 2] 2).
  apply list_elem_of_In. simpl. auto.
Defined.

(** C3.  On [5,2,8,2,9,1,5,3] the call leaves [1,2,3,5,8,9], of length 6. *)
Theorem compact_example :
  compact [5; 2; 8; 2; 9; 1; 5; 3] = [1; 2; 3; 5; 8; 9] ∧
  length (compact [5; 2; 8; 2; 9; 1; 5; 3]) = 6%nat.
Proof. split; vm_compute; reflexivity. Qed.

(** C9.  [process_vector] is idempotent: a second call leaves the contents,
    and so the length, of the vector as the first call made them. *)
Theorem compact_idempotent (vec : list Z) :
  compact (compact vec) = compact vec ∧
  length (compact (compact vec)) = length (compact vec).
Proof.
  assert (compact (compact vec) = compact vec) as ->; [| done].
  apply compact_fixed, compact_ascending.
Qed.

(** C10.  On the empty vector [process_vector] returns, leaves the vector
    empty, and prints only the end of line. *)
Theorem process_vector_empty :
  process_vector [] = ([], [Endl]) ∧ length (compact []) = 0%nat.
Proof. split; reflexivity. Qed.

(** ** max *)

Section max_facts.
Context {T : Type} `{Comparable T}.
Implicit Types a b : T.

Lemma max_gt a b : op_gt a b = true → max a b = a.
Proof. unfold max. by intros ->. Qed.

Lemma max_not_gt a b : op_gt a b = false → max a b = b.
Proof. unfold max. by intros ->. Qed.

(** Where [a >= b] means [a > b] or [a] and [b] are the same value, a tie
    cannot tell the two arguments apart. *)
Lemma max_ge_when_ties_identical a b :
  (∀ c d : T, op_ge c d = true ↔ op_gt c d = true ∨ c = d) →
  max a b = if op_ge a b then a else b.
Proof.
  intros Hge. unfold max.
  destruct (op_gt a b) eqn:Hgt, (op_ge a b) eqn:Hab; try done.
  - assert (op_ge a b = true) by (apply Hge; by left). congruence.
  - apply Hge in Hab as [? | ->]; [congruence | done].
Qed.

End max_facts.

Lemma int_ties_identical (c d : Z) :
  op_ge c d = true ↔ op_gt c d = true ∨ c = d.
Proof. simpl. rewrite Z.geb_le, Z.gtb_lt. lia. Qed.

Lemma positive_zero_is_not_negative_zero : 0%float ≠ (-0)%float.
Proof.
  intros Heq. apply (f_equal PrimFloat.classify) in Heq.
  vm_compute in Heq. discriminate Heq.
Qed.

(** C4, as the specification states it, fails for doubles: [+0.0 >= -0.0]
    holds, yet [max(+0.0, -0.0)] is the second argument [-0.0], which is not
    [+0.0]. *)
Lemma max_tie_returns_second :
  op_ge 0%float (-0)%float = true ∧
  max 0%float (-0)%float = (-0)%float ∧
  max 0%float (-0)%float ≠ 0%float.
Proof.
  split_and!; [reflexivity | reflexivity |].
  intros Heq. apply positive_zero_is_not_negative_zero. symmetry. exact Heq.
Qed.

(** C4, amended.  [max(a, b)] returns [a] when [a > b] holds and returns the
    second argument [b] otherwise, so also on a tie; for ints this is [a] when
    [a >= b] and [b] otherwise. *)
Theorem max_returns (T : Type) (C : Comparable T) (a b : T) (m n : Z) :
  max a b = (if op_gt a b then a else b) ∧
  (op_gt a b = false → op_ge a b = true → max a b = b) ∧
  max m n = (if op_ge m n then m else n).
Proof.
  split_and!; [done | by intros ?%max_not_gt |].
  apply max_ge_when_ties_identical, int_ties_identical.
Qed.

Lemma max_returns_witness : max 0%float (-0)%float = (-0)%float.
Proof.
  apply (max_returns float double_comparable 0%float (-0)%float 0 0);
    reflexivity.
Defined.

(** ** power *)

Section power_facts.
Implicit Types (base result : float) (exp i : Z).

Lemma power_loop_unfold base exp result i :
  power_loop base exp result i =
    if decide (i < exp)
    then power_loop base exp (result * base)%float (i + 1)
    else result.
Proof.
  rewrite power_loop_equation_1. unfold power_loop_unfold_clause_1.
  by destruct (decide (i < exp)).
Qed.

Lemma power_loop_exit base exp result i :
  exp ≤ i → power_loop base exp result i = result.
Proof.
  intros. rewrite power_loop_unfold. by rewrite decide_False by lia.
Qed.

(** With [n] iterations left, the loop multiplies [result] by [base] [n]
    times. *)
Lemma power_loop_fold base exp n : ∀ result i,
  exp - i = Z.of_nat n →
  power_loop base exp result i =
    fold_left PrimFloat.mul (repeat base n) result.
Proof.
  induction n as [| n IH]; intros result i Hn; rewrite power_loop_unfold.
  - by rewrite decide_False by lia.
  - rewrite decide_True by lia. simpl. apply IH. lia.
Qed.

(** The increment of the loop counter stays within the ints. *)
Lemma power_counter_in_range exp i :
  CInt.in_range exp → CInt.in_range i → i < exp →
  CInt.wrap (i + 1) = i + 1.
Proof.
  unfold CInt.in_range, CInt.wrap, CInt.INT_MIN, CInt.INT_MAX.
  intros ? ? ?. rewrite Z.mod_small; lia.
Qed.

End power_facts.

(** C5.  For an exponent [exp ≥ 0], [power(base, exp)] is [base] multiplied
    into the product [exp] times; [power(base, 0)] is 1 for every [base], zero
    included; and [power(2, 10)] is 1024. *)
Theorem power_nonnegative (base : float) (exp : Z) :
  0 ≤ exp →
  power base exp = repeated_product base (Z.to_nat exp) ∧
  power base 0 = 1%float ∧
  power 0 0 = 1%float ∧
  power 2 10 = 1024%float.
Proof.
  intros Hexp. split_and!.
  - apply power_loop_fold. lia.
  - by apply power_loop_exit.
  - by apply power_loop_exit.
  - vm_compute. reflexivity.
Qed.

Lemma power_nonnegative_witness :
  power 2 10 = repeated_product 2 (Z.to_nat 10) ∧
  power 2 0 = 1%float ∧
  power 0 0 = 1%float ∧
  power 2 10 = 1024%float.
Proof. apply (power_nonnegative 2 10). lia. Defined.

(** C8.  For a negative exponent the loop body never runs and
    [power(base, exp)] is 1.0, whatever [base] is. *)
Theorem power_negative (base : float) (exp : Z) :
  exp < 0 → power base exp = 1%float.
Proof. intros Hexp. apply power_loop_exit. lia. Qed.

Lemma power_negative_witness : power 2 (-3) = 1%float.
Proof. apply (power_negative 2 (-3)). lia. Defined.

(** ** sample.h: statistics and geometry *)

Section scan_facts.
Import SampleH.
Implicit Types (first e : Z) (rest : list Z).

Lemma scan_max first rest :
  scan Z.gtb first rest ∈ first :: rest ∧
  ∀ e, e ∈ first :: rest → e ≤ scan Z.gtb first rest.
Proof.
  unfold scan. revert first.
  induction rest as [| e' rest IH]; intros first; simpl.
  - split; [by left |]. intros e ->%list_elem_of_singleton. lia.
  - destruct (IH (if e' >? first then e' else first)) as [Hin Hle].
    split.
    + apply elem_of_cons in Hin as [-> | Hin].
      * destruct (e' >? first); [right; left | left].
      * by do 2 right.
    + intros e He.
      assert (first ≤ (if e' >? first then e' else first) ∧
              e' ≤ (if e' >? first then e' else first)) as [? ?].
      { destruct (Z.gtb_spec e' first); lia. }
      pose proof (Hle _ (list_elem_of_here _ _)).
      apply elem_of_cons in He as [-> | [-> | He]%elem_of_cons]; [lia .. |].
      apply Hle. by right.
Qed.

Lemma scan_min first rest :
  scan Z.ltb first rest ∈ first :: rest ∧
  ∀ e, e ∈ first :: rest → scan Z.ltb first rest ≤ e.
Proof.
  unfold scan. revert first.
  induction rest as [| e' rest IH]; intros first; simpl.
  - split; [by left |]. intros e ->%list_elem_of_singleton. lia.
  - destruct (IH (if e' <? first then e' else first)) as [Hin Hle].
    split.
    + apply elem_of_cons in Hin as [-> | Hin].
      * destruct (e' <? first); [right; left | left].
      * by do 2 right.
    + intros e He.
      assert ((if e' <? first then e' else first) ≤ first ∧
              (if e' <? first then e' else first) ≤ e') as [? ?].
      { destruct (Z.ltb_spec e' first); lia. }
      pose proof (Hle _ (list_elem_of_here _ _)).
      apply elem_of_cons in He as [-> | [-> | He]%elem_of_cons]; [lia .. |].
      apply Hle. by right.
Qed.

End scan_facts.

(** C6.  On an empty buffer [find_max] and [find_min] signal
    [EmptyInputError]; on a buffer with at least one element they return an
    element of the buffer that no element exceeds (respectively that exceeds
    no element). *)
Theorem find_extrema (first : Z) (rest : list Z) :
  SampleH.find_max [] = inl SampleH.EmptyInputError ∧
  SampleH.find_min [] = inl SampleH.EmptyInputError ∧
  ∃ hi lo : Z,
    SampleH.find_max (first :: rest) = inr hi ∧
    SampleH.find_min (first :: rest) = inr lo ∧
    hi ∈ first :: rest ∧ lo ∈ first :: rest ∧
    ∀ e, e ∈ first :: rest → lo ≤ e ≤ hi.
Proof.
  split_and!; [done | done |].
  destruct (scan_max first rest) as [? ?], (scan_min first rest) as [? ?].
  eexists _, _. split_and!; [done .. |]. auto.
Qed.

(** C7.  [calculate_area] is the product of the absolute values of the two
    spans; it is never negative and does not depend on the order in which the
    two corners are given; for the corners (0,0) and (4,3) it is 12. *)
Theorem calculate_area_spec (r : SampleH.Rectangle) :
  SampleH.calculate_area r =
    Z.abs (SampleH.x (SampleH.bottom_right r) - SampleH.x (SampleH.top_left r)) *
    Z.abs (SampleH.y (SampleH.bottom_right r) - SampleH.y (SampleH.top_left r)) ∧
  0 ≤ SampleH.calculate_area r ∧
  SampleH.calculate_area (swap_corners r) = SampleH.calculate_area r ∧
  SampleH.calculate_area
    {| SampleH.top_left := {| SampleH.x := 0; SampleH.y := 0 |};
       SampleH.bottom_right := {| SampleH.x := 4; SampleH.y := 3 |} |} = 12.
Proof.
  unfold SampleH.calculate_area, swap_corners. simpl.
  split_and!; [done | | | done].
  - apply Z.mul_nonneg_nonneg; apply Z.abs_nonneg.
  - f_equal; lia.
Qed.

(** ** Further properties of process_vector *)

Section process_vector_more.
Implicit Types (vec : list Z) (x : Z).

Lemma compact_submseteq vec : compact vec ⊆+ vec.
Proof.
  apply NoDup_submseteq; [apply compact_NoDup |].
  intros x. by rewrite elem_of_compact.
Qed.

Lemma compact_Permutation_NoDup vec : NoDup vec → compact vec ≡ₚ vec.
Proof.
  intros Hnd. apply NoDup_Permutation; [apply compact_NoDup | done |].
  intros x. apply elem_of_compact.
Qed.

End process_vector_more.

(** X1.  What [process_vector] leaves depends only on which values the vector
    holds: two vectors with the same values, in any order and with any
    repetitions, end up equal. *)
Theorem compact_same_values (vec vec' : list Z) :
  (∀ x, x ∈ vec ↔ x ∈ vec') → compact vec = compact vec'.
Proof.
  intros Hsame. apply (StronglySorted_unique Z.le).
  - apply strictly_ascending_ascending, compact_ascending.
  - apply strictly_ascending_ascending, compact_ascending.
  - apply NoDup_Permutation; [apply compact_NoDup .. |].
    intros x. by rewrite !elem_of_compact.
Qed.

Lemma compact_same_values_witness :
  compact [3; 1; 3; 2] = compact [2; 2; 1; 3; 1].
Proof.
  apply (compact_same_values [3; 1; 3; 2] [2; 2; 1; 3; 1]).
  intros x. rewrite !elem_of_cons, !elem_of_nil. tauto.
Defined.

(** X2.  [process_vector] never makes the vector longer; it keeps the length
    exactly when the vector held no value twice; and it leaves an empty vector
    only when it was given one. *)
Theorem compact_length (vec : list Z) :
  (length (compact vec) ≤ length vec)%nat ∧
  (length (compact vec) = length vec ↔ NoDup vec) ∧
  (compact vec = [] ↔ vec = []).
Proof.
  split_and!.
  - apply submseteq_length, compact_submseteq.
  - split.
    + intros Hlen. rewrite <-(submseteq_length_Permutation (compact vec) vec).
      * apply compact_NoDup.
      * apply compact_submseteq.
      * lia.
    + intros Hnd. by rewrite compact_Permutation_NoDup.
  - split; [| by intros ->].
    destruct vec as [| x vec]; [done |]. intros Hnil.
    assert (x ∈ compact (x :: vec)) as Hx by (apply elem_of_compact; left).
    rewrite Hnil in Hx. by apply elem_of_nil in Hx.
Qed.

(** X3.  [process_vector] leaves a vector as it is exactly when the vector is
    already strictly ascending. *)
Theorem compact_fixed_iff (vec : list Z) :
  compact vec = vec ↔ StronglySorted Z.lt vec.
Proof.
  split; [| apply compact_fixed].
  intros <-. apply compact_ascending.
Qed.

(** X4.  After [process_vector] the first element of the vector is the
    smallest value of the input and the last element is the largest. *)
Theorem compact_extremes (vec : list Z) (lo hi : Z) :
  head (compact vec) = Some lo → last (compact vec) = Some hi →
  lo ∈ vec ∧ hi ∈ vec ∧ ∀ x, x ∈ vec → lo ≤ x ≤ hi.
Proof.
  intros Hlo Hhi. pose proof (compact_ascending vec) as Hs.
  split_and!.
  - apply elem_of_compact. by apply head_Some_elem_of.
  - apply elem_of_compact. by apply last_Some_elem_of.
  - intros x Hx%elem_of_compact. split.
    + destruct (compact vec) as [| y l]; [done |].
      injection Hlo as ->. apply StronglySorted_cons in Hs as [Hall _].
      apply elem_of_cons in Hx as [-> | Hx]; [lia |].
      rewrite Forall_forall in Hall. specialize (Hall x Hx). lia.
    + by eapply ascending_last_max.
Qed.

Lemma compact_extremes_witness :
  1 ∈ [5; 2; 8; 2; 9; 1; 5; 3] ∧ 9 ∈ [5; 2; 8; 2; 9; 1; 5; 3] ∧
  ∀ x, x ∈ [5; 2; 8; 2; 9; 1; 5; 3] → 1 ≤ x ≤ 9.
Proof.
  apply (compact_extremes [5; 2; 8; 2; 9; 1; 5; 3] 1 9);
    vm_compute; reflexivity.
Defined.

(** ** Further properties of max *)

Section float_comparison.
Implicit Types x : float.

Lemma ltb_nan_r x : (x <? nan)%float = false.
Proof.
  rewrite ltb_spec. change (Prim2SF nan) with S754_nan.
  unfold SFltb. by destruct (Prim2SF x).
Qed.

Lemma ltb_nan_l x : (nan <? x)%float = false.
Proof.
  rewrite ltb_spec. change (Prim2SF nan) with S754_nan.
  unfold SFltb. by destruct (Prim2SF x).
Qed.

End float_comparison.

(** X5.  On ints [max] is the larger of its two arguments: it is at least
    each of them, it is one of them, and it does not depend on their order. *)
Theorem max_int (a b : Z) :
  max a b = Z.max a b ∧
  a ≤ max a b ∧ b ≤ max a b ∧
  (max a b = a ∨ max a b = b) ∧
  max a b = max b a.
Proof.
  unfold max; simpl.
  destruct (Z.gtb_spec a b), (Z.gtb_spec b a); split_and!; auto; lia.
Qed.

(** X6.  On doubles a NaN is never greater than anything and nothing is
    greater than it, so [max] returns its second argument whenever one of the
    two is a NaN: [max(NaN, x)] is [x] and [max(x, NaN)] is NaN. *)
Theorem max_nan (x : float) :
  max nan x = x ∧ max x nan = nan.
Proof.
  unfold max; simpl. by rewrite ltb_nan_r, ltb_nan_l.
Qed.

(** ** Further properties of power *)

Section power_more.
Implicit Types (base result : float) (exp : Z) (n : nat).

Lemma repeated_product_S base n :
  repeated_product base (S n) = (repeated_product base n * base)%float.
Proof.
  unfold repeated_product.
  change (repeat base (S n)) with (base :: repeat base n).
  by rewrite repeat_cons, fold_left_app.
Qed.

Lemma power_repeated_product base exp :
  0 ≤ exp → power base exp = repeated_product base (Z.to_nat exp).
Proof. intros. apply power_loop_fold. lia. Qed.

(** A base that multiplication by 1 and by itself leaves alone is its own
    power. *)
Lemma repeated_product_fixed base n :
  (1 * base)%float = base → (base * base)%float = base →
  repeated_product base (S n) = base.
Proof.
  intros Hone Hsq. induction n as [| n IH].
  - done.
  - by rewrite repeated_product_S, IH.
Qed.

Lemma power_fixed base exp :
  (1 * base)%float = base → (base * base)%float = base → 1 ≤ exp →
  power base exp = base.
Proof.
  intros Hone Hsq Hexp. rewrite power_repeated_product by lia.
  replace (Z.to_nat exp) with (S (Z.to_nat (exp - 1))) by lia.
  by apply repeated_product_fixed.
Qed.

End power_more.

(** X7.  One more step of the exponent is one more multiplication by the
    base: for [exp ≥ 0], [power(base, exp + 1)] is [power(base, exp) * base]. *)
Theorem power_succ (base : float) (exp : Z) :
  0 ≤ exp → power base (exp + 1) = (power base exp * base)%float.
Proof.
  intros Hexp. rewrite !power_repeated_product by lia.
  replace (Z.to_nat (exp + 1)) with (S (Z.to_nat exp)) by lia.
  apply repeated_product_S.
Qed.

Lemma power_succ_witness : power 3 (2 + 1) = (power 3 2 * 3)%float.
Proof. apply (power_succ 3 2). lia. Defined.

(** X8.  For an exponent [exp ≥ 1] the bases 0, 1, NaN and +infinity are their
    own powers; [power(1, e)] is 1 for every exponent [e], negative ones
    included. *)
Theorem power_special_bases (exp e : Z) :
  1 ≤ exp →
  power 0 exp = 0%float ∧
  power 1 exp = 1%float ∧
  power nan exp = nan ∧
  power infinity exp = infinity ∧
  power 1 e = 1%float.
Proof.
  intros Hexp. split_and!; try by apply power_fixed.
  destruct (decide (1 ≤ e)); [by apply power_fixed |].
  apply power_loop_exit. lia.
Qed.

Lemma power_special_bases_witness :
  power 0 3 = 0%float ∧
  power 1 3 = 1%float ∧
  power nan 3 = nan ∧
  power infinity 3 = infinity ∧
  power 1 (-2) = 1%float.
Proof. apply (power_special_bases 3 (-2)). lia. Defined.

Section powers_of_two.
Implicit Types n : nat.

(** The first 1024 powers of two are computed without rounding: the product
    of [k] twos is the double with mantissa [2 ^ 52] and exponent [k - 52]. *)
Lemma powers_of_two_exact :
  Forall (λ k : nat,
    Prim2SF (repeated_product 2 k) =
      S754_finite false (2 ^ 52) (Z.of_nat k - 52)) (seq 0 1024).
Proof.
  refine (@bool_decide_unpack _ (Forall_dec _ _) _). vm_compute. exact I.
Qed.

Lemma repeated_product_two_overflow n :
  repeated_product 2 (1024 + n) = infinity.
Proof.
  induction n as [| n IH].
  - vm_compute. reflexivity.
  - replace (1024 + S n)%nat with (S (1024 + n)) by lia.
    by rewrite repeated_product_S, IH.
Qed.

End powers_of_two.

(** X9.  [power(2, n)] is exact up to the largest double and overflows from
    there on: for [0 ≤ n < 1024] it is the double [2 ^ 52 * 2 ^ (n - 52)],
    that is [2 ^ n], and for [n ≥ 1024] it is +infinity. *)
Theorem power_two (n : Z) :
  0 ≤ n →
  (n < 1024 →
   Prim2SF (power 2 n) = S754_finite false (2 ^ 52) (n - 52)) ∧
  (1024 ≤ n → power 2 n = infinity).
Proof.
  intros Hn. rewrite power_repeated_product by done. split; intros Hb.
  - pose proof powers_of_two_exact as Hall.
    rewrite Forall_forall in Hall.
    specialize (Hall (Z.to_nat n)). rewrite Z2Nat.id in Hall by done.
    apply Hall. apply elem_of_seq. lia.
  - replace (Z.to_nat n) with (1024 + Z.to_nat (n - 1024))%nat by lia.
    apply repeated_product_two_overflow.
Qed.

Lemma power_two_witness :
  (10 < 1024 →
   Prim2SF (power 2 10) = S754_finite false (2 ^ 52) (10 - 52)) ∧
  (1024 ≤ 10 → power 2 10 = infinity).
Proof. apply (power_two 10). lia. Defined.

(** ** The class Person *)

(** X10.  [setAge] changes the age and nothing else: afterwards [getAge]
    returns the new age, [getName] returns the name given at construction, and
    [print] shows that name with the new age. *)
Theorem person_setAge (n : string) (a a' : Z) :
  let p := PersonClass.setAge (PersonClass.new n a) a' in
  PersonClass.getAge p = a' ∧
  PersonClass.getName p = n ∧
  PersonClass.print p =
    [Str "Name: "; Str n; Str ", Age: "; Int a'; Endl] ∧
  p = PersonClass.new n a'.
Proof. done. Qed.

(** ** int addition *)

Section int_addition.
Implicit Types a b z : Z.

Lemma wrap_in_range z : CInt.in_range z → CInt.wrap z = z.
Proof.
  unfold CInt.in_range, CInt.wrap, CInt.INT_MIN, CInt.INT_MAX.
  intros ?. rewrite Z.mod_small; lia.
Qed.

Lemma wrap_range z : CInt.in_range (CInt.wrap z).
Proof.
  unfold CInt.in_range, CInt.wrap, CInt.INT_MIN, CInt.INT_MAX.
  pose proof (Z.mod_pos_bound (z + 2 ^ 31) (2 ^ 32)). lia.
Qed.

End int_addition.

(** X11.  [add] of sample.c and the lambda [add] of sample.cpp return the
    mathematical sum whenever that sum is an int; both are commutative. *)
Theorem add_exact (a b : Z) :
  CInt.in_range (a + b) →
  SampleC.add a b = a + b ∧ MainCpp.add a b = a + b ∧
  SampleC.add a b = SampleC.add b a ∧ MainCpp.add a b = MainCpp.add b a.
Proof.
  intros Hsum. unfold SampleC.add, MainCpp.add.
  rewrite (Z.add_comm b a), wrap_in_range by done. done.
Qed.

Lemma add_exact_witness :
  SampleC.add 10 20 = 10 + 20 ∧ MainCpp.add 10 20 = 10 + 20 ∧
  SampleC.add 10 20 = SampleC.add 20 10 ∧
  MainCpp.add 10 20 = MainCpp.add 20 10.
Proof.
  apply (add_exact 10 20).
  unfold CInt.in_range, CInt.INT_MIN, CInt.INT_MAX. lia.
Defined.

(** ** print_array *)

Section print_array_facts.
Import SampleC.
Implicit Types (arr : list Z) (size i : Z) (out : list chunk) (n : nat).

Lemma print_array_loop_unfold arr size out i :
  print_array_loop arr size out i =
    if decide (i < size) then
      match arr !! Z.to_nat i with
      | Some n => print_array_loop arr size (out ++ [Dec n; Text " "]) (i + 1)
      | None => None
      end
    else Some out.
Proof.
  rewrite print_array_loop_equation_1.
  unfold print_array_loop_unfold_clause_1.
  destruct (decide (i < size)); [| done].
  unfold print_array_loop_unfold_clause_1_clause_1.
  by destruct (arr !! Z.to_nat i).
Qed.

(** With [n] iterations left and all of them inside the array, the loop
    writes the next [n] elements. *)
Lemma print_array_loop_in_bounds arr size n : ∀ out i,
  0 ≤ i → size - i = Z.of_nat n → size ≤ Z.of_nat (length arr) →
  print_array_loop arr size out i =
    Some (out ++ flat_map (λ e, [Dec e; Text " "])
                   (take n (drop (Z.to_nat i) arr))).
Proof.
  induction n as [| n IH]; intros out i Hi Hn Hsize;
    rewrite print_array_loop_unfold.
  - rewrite decide_False by lia. by rewrite take_0, app_nil_r.
  - rewrite decide_True by lia.
    destruct (lookup_lt_is_Some_2 arr (Z.to_nat i)) as [e He]; [lia |].
    rewrite He, IH by lia.
    rewrite (drop_S _ _ _ He). simpl.
    replace (Z.to_nat (i + 1)) with (S (Z.to_nat i)) by lia.
    by rewrite <-app_assoc.
Qed.

(** Once [size] exceeds the length of the array, the loop reads outside it. *)
Lemma print_array_loop_out_of_bounds arr size n : ∀ out i,
  0 ≤ i → Z.of_nat (length arr) - i = Z.of_nat n →
  Z.of_nat (length arr) < size →
  print_array_loop arr size out i = None.
Proof.
  induction n as [| n IH]; intros out i Hi Hn Hsize;
    rewrite print_array_loop_unfold; rewrite decide_True by lia.
  - by rewrite lookup_ge_None_2 by lia.
  - destruct (lookup_lt_is_Some_2 arr (Z.to_nat i)) as [e ->]; [lia |].
    apply IH; lia.
Qed.

Lemma print_array_Some arr size :
  size ≤ Z.of_nat (length arr) →
  print_array arr size =
    Some (flat_map (λ e, [Dec e; Text " "]) (take (Z.to_nat size) arr)
          ++ [Newline]).
Proof.
  intros Hsize. unfold print_array.
  destruct (decide (0 ≤ size)).
  - by rewrite (print_array_loop_in_bounds arr size (Z.to_nat size)) by lia.
  - rewrite print_array_loop_unfold, decide_False by lia.
    by replace (Z.to_nat size) with 0%nat by lia.
Qed.

Lemma print_array_None arr size :
  Z.of_nat (length arr) < size → print_array arr size = None.
Proof.
  intros Hsize. unfold print_array.
  by rewrite (print_array_loop_out_of_bounds arr size (length arr)) by lia.
Qed.

End print_array_facts.

(** X12.  When [size] is at most the number of ints in the array,
    [print_array] stays inside the array and writes its first [size] elements,
    each followed by a space, and then a newline; for [size ≤ 0] that is the
    newline alone. *)
Theorem print_array_in_bounds (arr : list Z) (size : Z) :
  size ≤ Z.of_nat (length arr) →
  SampleC.print_array arr size =
    Some (flat_map (λ e, [SampleC.Dec e; SampleC.Text " "])
            (take (Z.to_nat size) arr) ++ [SampleC.Newline]) ∧
  (size ≤ 0 → SampleC.print_array arr size = Some [SampleC.Newline]).
Proof.
  intros Hsize. split; [by apply print_array_Some |].
  intros Hneg. rewrite print_array_Some by done.
  by replace (Z.to_nat size) with 0%nat by lia.
Qed.

Lemma print_array_in_bounds_witness :
  SampleC.print_array [1; 2; 3; 4; 5] 3 =
    Some (flat_map (λ e, [SampleC.Dec e; SampleC.Text " "])
            (take (Z.to_nat 3) [1; 2; 3; 4; 5]) ++ [SampleC.Newline]) ∧
  (3 ≤ 0 → SampleC.print_array [1; 2; 3; 4; 5] 3 = Some [SampleC.Newline]).
Proof. apply (print_array_in_bounds [1; 2; 3; 4; 5] 3). simpl. lia. Defined.

(** X13.  [print_array] reads outside the array exactly when [size] exceeds
    the number of ints in it. *)
Theorem print_array_out_of_bounds (arr : list Z) (size : Z) :
  SampleC.print_array arr size = None ↔ Z.of_nat (length arr) < size.
Proof.
  split; [| apply print_array_None].
  intros Hnone. destruct (decide (size ≤ Z.of_nat (length arr))); [| lia].
  by rewrite print_array_Some in Hnone.
Qed.

(** ** main of sample.c *)

(** X14.  [main] returns 1 exactly when [malloc] fails: it has then printed
    the sum and the first array, and writes the failure message to the
    standard error.  When [malloc] succeeds, whatever the fresh block of five
    ints holds, every access stays in bounds, the third line is
    [0 2 4 6 8] and [main] returns 0 with nothing on the standard error. *)
Theorem main_outcome (allocated : option (list Z)) :
  (∀ block, allocated = Some block → length block = 5%nat) →
  let first_lines :=
    [SampleC.Text "Sum: "; SampleC.Dec 30; SampleC.Newline;
     SampleC.Dec 1; SampleC.Text " "; SampleC.Dec 2; SampleC.Text " ";
     SampleC.Dec 3; SampleC.Text " "; SampleC.Dec 4; SampleC.Text " ";
     SampleC.Dec 5; SampleC.Text " "; SampleC.Newline] in
  SampleC.main allocated =
    Some (match allocated with
          | None =>
              {| SampleC.exit_code := 1;
                 SampleC.stdout := first_lines;
                 SampleC.stderr :=
                   [SampleC.Text "Memory allocation failed";
                    SampleC.Newline] |}
          | Some _ =>
              {| SampleC.exit_code := 0;
                 SampleC.stdout :=
                   first_lines ++
                   [SampleC.Dec 0; SampleC.Text " "; SampleC.Dec 2;
                    SampleC.Text " "; SampleC.Dec 4; SampleC.Text " ";
                    SampleC.Dec 6; SampleC.Text " "; SampleC.Dec 8;
                    SampleC.Text " "; SampleC.Newline];
                 SampleC.stderr := [] |}
          end).
Proof.
  intros Hblock. destruct allocated as [block |]; [| vm_compute; reflexivity].
  specialize (Hblock block eq_refl).
  do 5 (destruct block as [| ? block]; [discriminate Hblock |]).
  destruct block; [| discriminate Hblock].
  vm_compute. reflexivity.
Qed.

Lemma main_outcome_witness :
  SampleC.exit_code <$> SampleC.main (Some [7; 7; 7; 7; 7]) = Some 0.
Proof.
  rewrite (main_outcome (Some [7; 7; 7; 7; 7])); [reflexivity |].
  intros block [= <-]. reflexivity.
Defined.
